(** * The time-scale facade of the chart: coordinate queries and range events

    A shallow embedding of [TimeScaleApi] (api/time-scale-api.ts, in its
    binary-search revision) together with the properties its
    specification states about it.

    Logical indices and comparable keys are JavaScript numbers that hold
    integers here; they are modelled as [Z], and
    [Math.floor((left + right) / 2)] is [Z.div], which rounds down. *)

From Stdlib Require Import ZArith Lia Bool List String.
From Equations Require Import Equations.
From Equations.Prop Require Import Logic.
From stdpp Require Import base option list gmap.

Local Open Scope Z_scope.

(** [Range<T>]: a pair of ends, as callers pass and receive it. *)
Record Range (A : Type) : Type := mkRange
  { from : A;
    to : A }.
Arguments mkRange {A} _ _.
Arguments from {A} _.
Arguments to {A} _.

(** ** The collaborators the facade reads *)

Section Facade.

(** The three type parameters of the class: the caller's time value,
    the internal time value, and pixel coordinates. *)
Context {HorzScaleItem InternalHorzScaleItem Coordinate : Type}.

(** [TimeScalePoint]: the internal time and the caller's original. *)
Record TimeScalePoint : Type := mkTimeScalePoint
  { time : InternalHorzScaleItem;
    originalTime : HorzScaleItem }.

(** [IHorzScaleBehavior], restricted to the two methods called. *)
Record IHorzScaleBehavior : Type := mkHorzScaleBehavior
  { convertHorzItemToInternal : HorzScaleItem -> InternalHorzScaleItem;
    key : InternalHorzScaleItem -> Z }.

(** [RangeImpl<TimePointIndex>] with its [left()] and [right()]. *)
Record RangeImpl : Type := mkRangeImpl
  { range_left : Z;
    range_right : Z }.

(** The read view of [TimeScale] at the moment of a query.  The class
    is a collaborator of the facade; each method the facade calls is a
    field. *)
Record TimeScale : Type := mkTimeScale
  { isEmpty : bool;
    indexToCoordinate : Z -> Coordinate;
    coordinateToIndex : Coordinate -> Z;
    timeToIndex : InternalHorzScaleItem -> bool -> option Z;
    indexToTimeScalePoint : Z -> option TimeScalePoint;
    visibleStrictRange : option RangeImpl;
    visibleTimeRange : option (Range TimeScalePoint);
    visibleLogicalRange : option RangeImpl }.

Variable ts : TimeScale.
Variable behavior : IHorzScaleBehavior.

(** ** Queries guarded by [isEmpty] *)

Definition logicalToCoordinate (logical : Z) : option Coordinate :=
  if isEmpty ts then None
  else Some (indexToCoordinate ts logical).

Definition coordinateToLogical (x : Coordinate) : option Z :=
  if isEmpty ts then None
  else Some (coordinateToIndex ts x).

(** ** Exact lookup *)

Definition timeToCoordinate (t : HorzScaleItem) : option Coordinate :=
  let timePoint := convertHorzItemToInternal behavior t in
  match timeToIndex ts timePoint false with
  | None => None
  | Some timePointIndex => Some (indexToCoordinate ts timePointIndex)
  end.

(** ** The rounded lookup *)

(** The first inner loop: [while (validIndex <= right)], returning the
    coordinate of the first index with a point; [None] is falling out
    of the loop.  ([right_] for [right]: in a clause [right] would be
    read as the constructor.) *)
Equations? scanForward (validIndex right_ : Z) : option Coordinate
  by wf (Z.to_nat (right_ - validIndex + 1)) lt :=
  scanForward validIndex right_ with inspect (validIndex <=? right_) := {
    | exist _ false _ := None;
    | exist _ true Hgo with indexToTimeScalePoint ts validIndex := {
        | Some _ := Some (indexToCoordinate ts validIndex);
        | None := scanForward (validIndex + 1) right_ } }.
Proof. lia. Qed.

(** The second inner loop: [while (validIndex >= left)], downwards. *)
Equations? scanBackward (validIndex left_ : Z) : option Coordinate
  by wf (Z.to_nat (validIndex - left_ + 1)) lt :=
  scanBackward validIndex left_ with inspect (validIndex >=? left_) := {
    | exist _ false _ := None;
    | exist _ true Hgo with indexToTimeScalePoint ts validIndex := {
        | Some _ := Some (indexToCoordinate ts validIndex);
        | None := scanBackward (validIndex - 1) left_ } }.
Proof. lia. Qed.

(** What one pass through the body of the outer [while] does: it
    leaves the method with a value, or goes round again with new
    bounds. *)
Inductive flow : Type :=
| Return (result : option Coordinate)
| Continue (left right : Z).

Definition loopBody (timeKey left right : Z) : flow :=
  let mid := (left + right) / 2 in
  match indexToTimeScalePoint ts mid with
  | None =>
      (* If mid point is null, try to find a valid point in either
         direction *)
      match scanForward mid right with
      | Some found => Return (Some found)
      | None =>
          match scanBackward (mid - 1) left with
          | Some found => Return (Some found)
          | None => Return None
          end
      end
  | Some currentPoint =>
      let currentKey := key behavior (time currentPoint) in
      if currentKey =? timeKey then
        Return (Some (indexToCoordinate ts mid))
      else if currentKey <? timeKey then
        if left =? right - 1 then
          match indexToTimeScalePoint ts right with
          | None => Return (Some (indexToCoordinate ts mid))
          | Some nextPoint =>
              let nextKey := key behavior (time nextPoint) in
              Return (Some (indexToCoordinate ts
                (if Z.abs (currentKey - timeKey) <=? Z.abs (nextKey - timeKey)
                 then mid else right)))
          end
        else Continue (mid + 1) right
      else
        if left =? right - 1 then
          match indexToTimeScalePoint ts left with
          | None => Return (Some (indexToCoordinate ts mid))
          | Some prevPoint =>
              let prevKey := key behavior (time prevPoint) in
              Return (Some (indexToCoordinate ts
                (if Z.abs (prevKey - timeKey) <=? Z.abs (currentKey - timeKey)
                 then left else mid)))
          end
        else Continue left (mid - 1)
  end.

(** How the outer [while (left <= right)] ends: by a [return] inside
    it, or by its condition failing, with the bounds it then has. *)
Inductive loopEnd : Type :=
| Returned (result : option Coordinate)
| Exited (left right : Z).

Equations? searchLoop (timeKey left_ right_ : Z) : loopEnd
  by wf (Z.to_nat (right_ - left_ + 1)) lt :=
  searchLoop timeKey left_ right_ with inspect (left_ <=? right_) := {
    | exist _ false _ := Exited left_ right_;
    | exist _ true Hgo with inspect (loopBody timeKey left_ right_) := {
        | exist _ (Return result) _ := Returned result;
        | exist _ (Continue l' r') Hbody := searchLoop timeKey l' r' } }.
Proof.
  apply Z.leb_le in Hgo.
  unfold loopBody in Hbody.
  repeat match type of Hbody with
         | context [match ?x with _ => _ end] => destruct x
         end;
    try discriminate; injection Hbody as <- <-;
    Z.div_mod_to_equations; lia.
Qed.

(** The code after the loop: the closest of the two final bounds. *)
Definition afterLoop (timeKey left right : Z) : option Coordinate :=
  let leftPoint := indexToTimeScalePoint ts left in
  let rightPoint := indexToTimeScalePoint ts right in
  match leftPoint, rightPoint with
  | None, None => None
  | None, Some _ => Some (indexToCoordinate ts right)
  | Some _, None => Some (indexToCoordinate ts left)
  | Some leftPoint, Some rightPoint =>
      let leftDiff := Z.abs (key behavior (time leftPoint) - timeKey) in
      let rightDiff := Z.abs (key behavior (time rightPoint) - timeKey) in
      Some (indexToCoordinate ts (if leftDiff <=? rightDiff then left else right))
  end.

Definition timeToCoordinateRounded (t : HorzScaleItem) : option Coordinate :=
  match timeToCoordinate t with
  | Some timeToCoordinateResult => Some timeToCoordinateResult
  | None =>
      let timePoint := convertHorzItemToInternal behavior t in
      let timeKey := key behavior timePoint in
      (* Get the visible range of points *)
      match visibleStrictRange ts with
      | None => None
      | Some visibleRange =>
          match searchLoop timeKey (range_left visibleRange)
                                   (range_right visibleRange) with
          | Returned result => result
          | Exited l r => afterLoop timeKey l r
          end
      end
  end.

(** The outer loop as a relation that counts the passes through its
    body. *)
Inductive whileRuns (timeKey : Z) : Z -> Z -> nat -> loopEnd -> Prop :=
| whileExit left right :
    right < left ->
    whileRuns timeKey left right 0 (Exited left right)
| whileReturn left right result :
    left <= right ->
    loopBody timeKey left right = Return result ->
    whileRuns timeKey left right 1 (Returned result)
| whileAgain left right l' r' passes ending :
    left <= right ->
    loopBody timeKey left right = Continue l' r' ->
    whileRuns timeKey l' r' passes ending ->
    whileRuns timeKey left right (S passes) ending.

(** A call of the method as a relation: the exact hit, the missing
    range, a [return] inside the loop, or the code after the loop. *)
Inductive roundedRuns (t : HorzScaleItem) : option Coordinate -> Prop :=
| roundedExact found :
    timeToCoordinate t = Some found ->
    roundedRuns t (Some found)
| roundedNoRange :
    timeToCoordinate t = None ->
    visibleStrictRange ts = None ->
    roundedRuns t None
| roundedReturned visibleRange passes result :
    timeToCoordinate t = None ->
    visibleStrictRange ts = Some visibleRange ->
    whileRuns (key behavior (convertHorzItemToInternal behavior t))
              (range_left visibleRange) (range_right visibleRange)
              passes (Returned result) ->
    roundedRuns t result
| roundedExited visibleRange passes l r :
    timeToCoordinate t = None ->
    visibleStrictRange ts = Some visibleRange ->
    whileRuns (key behavior (convertHorzItemToInternal behavior t))
              (range_left visibleRange) (range_right visibleRange)
              passes (Exited l r) ->
    roundedRuns t
      (afterLoop (key behavior (convertHorzItemToInternal behavior t)) l r).

(** A strict range has its ends in order and a point at each end. *)
Definition strictRangeInvariant : Prop :=
  match visibleStrictRange ts with
  | None => True
  | Some visibleRange =>
      range_left visibleRange <= range_right visibleRange
      /\ is_Some (indexToTimeScalePoint ts (range_left visibleRange))
      /\ is_Some (indexToTimeScalePoint ts (range_right visibleRange))
  end.

End Facade.

Arguments TimeScalePoint : clear implicits.
Arguments IHorzScaleBehavior : clear implicits.
Arguments TimeScale : clear implicits.
Arguments flow : clear implicits.
Arguments loopEnd : clear implicits.

(** ** From a pixel back to a time *)

Section PixelToTime.

Context {HorzScaleItem InternalHorzScaleItem Coordinate : Type}.
Variable ts : TimeScale HorzScaleItem InternalHorzScaleItem Coordinate.

Definition coordinateToTime (x : Coordinate) : option HorzScaleItem :=
  let timePointIndex := coordinateToIndex ts x in
  match indexToTimeScalePoint ts timePointIndex with
  | None => None
  | Some timePoint => Some (originalTime timePoint)
  end.

End PixelToTime.

(** ** What the search keeps, and what it finds *)

Section SearchPredicates.

Context {HorzScaleItem InternalHorzScaleItem Coordinate : Type}.
Variable ts : TimeScale HorzScaleItem InternalHorzScaleItem Coordinate.
Variable behavior : IHorzScaleBehavior HorzScaleItem InternalHorzScaleItem.

(** The target key and the two ends of the range searched. *)
Variables (timeKey first last : Z).

Local Abbreviation point := (indexToTimeScalePoint ts).
Local Abbreviation keyOf := (fun p => key behavior (time p)).

(** What the loop knows about the keys outside its window. *)
Definition outside (left right : Z) : Prop :=
  first <= left /\ right <= last /\ left <= right + 1
  /\ (forall j q, first <= j < left -> point j = Some q -> keyOf q < timeKey)
  /\ (forall j q, right < j <= last -> point j = Some q -> timeKey < keyOf q).

(** Index [i] holds the last key not above the target, or the first key
    not below it. *)
Definition brackets (i : Z) : Prop :=
  exists p, first <= i <= last /\ point i = Some p
    /\ ((keyOf p <= timeKey
         /\ forall j q, i < j <= last -> point j = Some q -> timeKey < keyOf q)
        \/ (timeKey <= keyOf p
            /\ forall j q, first <= j < i -> point j = Some q -> keyOf q < timeKey)).

End SearchPredicates.

(** ** Commands: calls on the collaborators, and thrown errors

    The facade keeps no mutable field of its own: whatever it changes, it
    changes by calling the chart model or a delegate.  A command is
    therefore modelled by the calls it makes, in order, and by how it
    ends. *)

Inductive outcome (A : Type) : Type :=
| Done (value : A)
| Threw (message : string).
Arguments Done {A} _.
Arguments Threw {A} _.

Section Commands.

Context {HorzScaleItem InternalHorzScaleItem Coordinate : Type}.

Inductive call : Type :=
| ModelSetTargetLogicalRange (range : Range Z)
| TimeScaleVisibleTimeRange
| TimeScaleVisibleLogicalRange
| ListenerTimeRange (listener : nat) (payload : option (Range HorzScaleItem))
| ListenerLogicalRange (listener : nat) (payload : option (Range Z)).

Definition command (A : Type) : Type := (list call * outcome A)%type.

Definition ret {A} (value : A) : command A := ([], Done value).

Definition bind {A B} (c : command A) (k : A -> command B) : command B :=
  match c with
  | (calls, Done value) => let (more, out) := k value in (calls ++ more, out)
  | (calls, Threw message) => (calls, Threw message)
  end.

Definition perform {A} (c : call) (answer : A) : command A := ([c], Done answer).

Definition throw {A} (message : string) : command A := ([], Threw message).

Definition calls {A} (c : command A) : list call := fst c.

Local Notation "x <- c1 ;; c2" := (bind c1 (fun x => c2))
  (at level 100, c1 at next level, right associativity).
Local Notation "c1 ;; c2" := (bind c1 (fun _ => c2))
  (at level 100, right associativity).

(** Modelled from the spec: [assert] of helpers/assertions, which is
    not part of the two source files.  A programmer-error fault "must
    fail fast and loudly (assertion-style)": a false condition throws,
    carrying the message. *)
Definition assert (condition : bool) (message : string) : command unit :=
  if condition then ret tt else throw message.

(** Modelled from the spec: [Delegate], which is not part of the two
    source files, as the list of its registered listeners in
    subscription order; a listener is named by a number. *)
Record Delegate : Type := mkDelegate
  { listeners : list nat }.

(** Modelled from the spec: [Delegate.hasListeners], the "cheap
    predicate used by producers to avoid constructing event payloads
    when no one is listening". *)
Definition hasListeners (d : Delegate) : bool :=
  negb (Nat.eqb (length (listeners d)) 0).

(** Modelled from the spec: [Delegate.fire], which "invokes every
    currently registered listener, in subscription order,
    synchronously"; [invoke] says which call an invocation is. *)
Definition fire {P} (invoke : nat -> P -> call) (d : Delegate) (payload : P)
  : command unit :=
  (map (fun listener => invoke listener payload) (listeners d), Done tt).

Variable ts : TimeScale HorzScaleItem InternalHorzScaleItem Coordinate.
Variable _timeRangeChanged : Delegate.
Variable _logicalRangeChanged : Delegate.

Definition getVisibleRange : command (option (Range HorzScaleItem)) :=
  timeRange <- perform TimeScaleVisibleTimeRange (visibleTimeRange ts) ;;
  match timeRange with
  | None => ret None
  | Some timeRange =>
      ret (Some {| from := originalTime (from timeRange);
                   to := originalTime (to timeRange) |})
  end.

Definition getVisibleLogicalRange : command (option (Range Z)) :=
  logicalRange <- perform TimeScaleVisibleLogicalRange (visibleLogicalRange ts) ;;
  match logicalRange with
  | None => ret None
  | Some logicalRange =>
      ret (Some {| from := range_left logicalRange;
                   to := range_right logicalRange |})
  end.

Definition setVisibleLogicalRange (range : Range Z) : command unit :=
  assert (from range <=? to range)
         "The from index cannot be after the to index." ;;
  perform (ModelSetTargetLogicalRange range) tt.

Definition _onVisibleBarsChanged : command unit :=
  if hasListeners _timeRangeChanged then
    payload <- getVisibleRange ;;
    fire ListenerTimeRange _timeRangeChanged payload
  else ret tt.

Definition _onVisibleLogicalRangeChanged : command unit :=
  if hasListeners _logicalRangeChanged then
    payload <- getVisibleLogicalRange ;;
    fire ListenerLogicalRange _logicalRangeChanged payload
  else ret tt.

(** The payloads the two handlers build. *)
Definition timeRangePayload : option (Range HorzScaleItem) :=
  match visibleTimeRange ts with
  | None => None
  | Some timeRange =>
      Some {| from := originalTime (from timeRange);
              to := originalTime (to timeRange) |}
  end.

Definition logicalRangePayload : option (Range Z) :=
  match visibleLogicalRange ts with
  | None => None
  | Some logicalRange =>
      Some {| from := range_left logicalRange; to := range_right logicalRange |}
  end.

(** The chart model after a run of calls, for any model and any
    [setTargetLogicalRange]: only that call reaches the model. *)
Definition modelAfter {Model : Type}
    (setTargetLogicalRange : Range Z -> Model -> Model)
    (model : Model) (made : list call) : Model :=
  fold_left (fun m c =>
               match c with
               | ModelSetTargetLogicalRange range => setTargetLogicalRange range m
               | _ => m
               end) made model.

End Commands.

Arguments call : clear implicits.
Arguments command : clear implicits.

(** ** A time scale over a table of points *)

Section PointTable.

Context {HorzScaleItem InternalHorzScaleItem Coordinate : Type}.

Variable behavior : IHorzScaleBehavior HorzScaleItem InternalHorzScaleItem.

(** The backing sequence: logical index to point, absent at a gap. *)
Variable points : gmap Z (TimeScalePoint HorzScaleItem InternalHorzScaleItem).

(** Modelled from the spec: [TimeScale.timeToIndex], which is not part
    of the two source files.  "Converts via the Key Strategy, then
    looks up the exact present entry whose key equals the converted
    key"; with the flag false and no exact match it is absent, the
    nearest-match policy being layered on top by the caller. *)
Definition exactIndex (timePoint : InternalHorzScaleItem) : option Z :=
  fst <$> head (filter
                  (fun entry => key behavior (time entry.2) = key behavior timePoint)
                  (map_to_list points)).

(** Modelled from the spec: the read view of a [TimeScale] whose
    backing sequence is [points] and whose strict range is [visible];
    the index/pixel transform is left to the caller.  The logical and
    the time range, which no query reads, follow the strict range and
    the points at its ends. *)
Definition tableScale (visible : option RangeImpl)
    (toCoordinate : Z -> Coordinate) (toIndex : Coordinate -> Z)
  : TimeScale HorzScaleItem InternalHorzScaleItem Coordinate :=
  {| isEmpty := Nat.eqb (size points) 0;
     indexToCoordinate := toCoordinate;
     coordinateToIndex := toIndex;
     timeToIndex := fun timePoint _ => exactIndex timePoint;
     indexToTimeScalePoint := fun index => points !! index;
     visibleStrictRange := visible;
     visibleTimeRange :=
       match visible with
       | None => None
       | Some r =>
           match points !! range_left r, points !! range_right r with
           | Some first, Some last => Some (mkRange first last)
           | _, _ => None
           end
       end;
     visibleLogicalRange := visible |}.

(** The data model's order: among present points, a later index has a
    larger key. *)
Definition keysIncreasing : Prop :=
  map_Forall (fun i p =>
    map_Forall (fun j q =>
      i < j -> key behavior (time p) < key behavior (time q)) points) points.

#[global] Instance keysIncreasing_dec : Decision keysIncreasing.
Proof. unfold keysIncreasing. apply _. Defined.

End PointTable.

(** ** Concrete scales: time values that are their own keys *)

Definition numericBehavior : IHorzScaleBehavior Z Z :=
  {| convertHorzItemToInternal := fun t => t; key := fun t => t |}.

Definition pointAt (k : Z) : TimeScalePoint Z Z :=
  {| time := k; originalTime := k |}.

Definition tableOf (entries : list (Z * Z)) : gmap Z (TimeScalePoint Z Z) :=
  list_to_map (map (fun e => (e.1, pointAt e.2)) entries).

Definition numericScale (entries : list (Z * Z)) (visible : option RangeImpl)
  : TimeScale Z Z Z :=
  tableScale numericBehavior (tableOf entries) visible (fun i => i) (fun x => x).


(** Keys 1, 5, 9 at indices 0, 1, 2, all of them visible. *)
Definition scale_1_5_9 : TimeScale Z Z Z :=
  numericScale [(0, 1); (1, 5); (2, 9)] (Some (mkRangeImpl 0 2)).

(** Keys 1 and 10 at indices 0 and 2, with a gap at index 1. *)
Definition scale_gap_at_1 : TimeScale Z Z Z :=
  numericScale [(0, 1); (2, 10)] (Some (mkRangeImpl 0 2)).

(** Keys 1, 3, 5, 9, 13 at indices 0, 1, 2, 4, 5, with a gap at index 3
    between the keys 5 and 9. *)
Definition scale_gap_at_3 : TimeScale Z Z Z :=
  numericScale [(0, 1); (1, 3); (2, 5); (4, 9); (5, 13)] (Some (mkRangeImpl 0 5)).

(** Keys 5 and 9 at indices 0 and 1. *)
Definition scale_5_9 : TimeScale Z Z Z :=
  numericScale [(0, 5); (1, 9)] (Some (mkRangeImpl 0 1)).

(** * Properties *)

Section FacadeProperties.

Context {HorzScaleItem InternalHorzScaleItem Coordinate : Type}.
Variable ts : TimeScale HorzScaleItem InternalHorzScaleItem Coordinate.
Variable behavior : IHorzScaleBehavior HorzScaleItem InternalHorzScaleItem.

Local Abbreviation point := (indexToTimeScalePoint ts).
Local Abbreviation coordinate := (indexToCoordinate ts).

(** Forget the equations between inspected values that [funelim]
    leaves behind. *)
Ltac drop_inspect :=
  repeat match goal with
         | H : sigmaI _ _ _ = _ |- _ => clear H
         end.

(** Rewrite the scrutinee of the goal's [match] with an equation at
    hand. *)
Ltac settle_match :=
  repeat match goal with
         | H : ?x = _ |- context [match ?x with _ => _ end] => rewrite H
         end.

(** *** The loops, one pass at a time *)


Lemma scanBackward_step validIndex left :
  scanBackward ts validIndex left =
  if validIndex >=? left then
    match point validIndex with
    | Some _ => Some (coordinate validIndex)
    | None => scanBackward ts (validIndex - 1) left
    end
  else None.
Proof.
  funelim (scanBackward ts validIndex left);
    settle_match; reflexivity.
Qed.

Lemma searchLoop_step timeKey left right :
  searchLoop ts behavior timeKey left right =
  if left <=? right then
    match loopBody ts behavior timeKey left right with
    | Return result => Returned result
    | Continue l' r' => searchLoop ts behavior timeKey l' r'
    end
  else Exited left right.
Proof.
  funelim (searchLoop ts behavior timeKey left right);
    settle_match; reflexivity.
Qed.

(** *** What the two probes find *)

Lemma scanForward_spec validIndex right :
  match scanForward ts validIndex right with
  | Some found =>
      exists i, validIndex <= i <= right /\ is_Some (point i)
                /\ (forall j, validIndex <= j < i -> point j = None)
                /\ found = coordinate i
  | None => forall j, validIndex <= j <= right -> point j = None
  end.
Proof.
  funelim (scanForward ts validIndex right); drop_inspect.
  - intros j Hj. apply Z.leb_gt in e. lia.
  - exists validIndex. apply Z.leb_le in Hgo.
    repeat split; try lia; eauto; intros; lia.
  - apply Z.leb_le in Hgo.
    destruct (scanForward ts (validIndex + 1) right_) as [found|].
    + destruct H as (i & Hi & Hsome & Hgap & ->).
      exists i. repeat split; try lia; auto.
      intros j Hj. destruct (Z.eq_dec j validIndex) as [->|]; auto.
      apply Hgap. lia.
    + intros j Hj. destruct (Z.eq_dec j validIndex) as [->|]; auto.
      apply H. lia.
Qed.

Lemma scanBackward_spec validIndex left :
  match scanBackward ts validIndex left with
  | Some found =>
      exists i, left <= i <= validIndex /\ is_Some (point i)
                /\ (forall j, i < j <= validIndex -> point j = None)
                /\ found = coordinate i
  | None => forall j, left <= j <= validIndex -> point j = None
  end.
Proof.
  funelim (scanBackward ts validIndex left); drop_inspect.
  - intros j Hj. rewrite Z.geb_leb in e. apply Z.leb_gt in e. lia.
  - exists validIndex. apply Z.geb_le in Hgo.
    repeat split; try lia; eauto; intros; lia.
  - apply Z.geb_le in Hgo.
    destruct (scanBackward ts (validIndex - 1) left_) as [found|].
    + destruct H as (i & Hi & Hsome & Hgap & ->).
      exists i. repeat split; try lia; auto.
      intros j Hj. destruct (Z.eq_dec j validIndex) as [->|]; auto.
      apply Hgap. lia.
    + intros j Hj. destruct (Z.eq_dec j validIndex) as [->|]; auto.
      apply H. lia.
Qed.

(** C7: when the point at the midpoint is absent, the pass returns the
    first present index met going up from [mid] to [right]; failing
    that, the first met going down from [mid - 1] to [left]; failing
    both, it returns absent. *)
Theorem absent_midpoint_probes timeKey left right :
  point ((left + right) / 2) = None ->
  let mid := (left + right) / 2 in
  (exists i, mid <= i <= right /\ is_Some (point i)
     /\ (forall j, mid <= j < i -> point j = None)
     /\ loopBody ts behavior timeKey left right = Return (Some (coordinate i)))
  \/ ((forall j, mid <= j <= right -> point j = None)
      /\ exists i, left <= i <= mid - 1 /\ is_Some (point i)
           /\ (forall j, i < j <= mid - 1 -> point j = None)
           /\ loopBody ts behavior timeKey left right = Return (Some (coordinate i)))
  \/ ((forall j, mid <= j <= right -> point j = None)
      /\ (forall j, left <= j <= mid - 1 -> point j = None)
      /\ loopBody ts behavior timeKey left right = Return None).
Proof.
  intros Hmid mid. unfold loopBody. cbv zeta. rewrite Hmid. fold mid.
  pose proof (scanForward_spec mid right) as Hup.
  destruct (scanForward ts mid right) as [found|].
  - left. destruct Hup as (i & Hi & Hsome & Hgap & ->). eauto 6.
  - right.
    pose proof (scanBackward_spec (mid - 1) left) as Hdown.
    destruct (scanBackward ts (mid - 1) left) as [found|].
    + left. destruct Hdown as (i & Hi & Hsome & Hgap & ->). eauto 7.
    + right. auto.
Qed.

(** *** Termination of the search *)

Lemma loopBody_shrinks timeKey left right l' r' :
  left <= right ->
  loopBody ts behavior timeKey left right = Continue l' r' ->
  let mid := (left + right) / 2 in
  left <= mid <= right
  /\ ((l' = mid + 1 /\ r' = right) \/ (l' = left /\ r' = mid - 1)).
Proof.
  intros Hle Hbody mid.
  assert (left <= mid <= right) by (subst mid; Z.div_mod_to_equations; lia).
  split; [assumption|].
  unfold loopBody in Hbody. cbv zeta in Hbody. fold mid in Hbody.
  repeat match type of Hbody with
         | context [match ?x with _ => _ end] => destruct x
         end;
    try discriminate; injection Hbody as <- <-; auto.
Qed.

Lemma whileRuns_bounded timeKey (budget : nat) :
  forall left right,
    (Z.to_nat (right - left + 1) <= budget)%nat ->
    exists passes ending,
      whileRuns ts behavior timeKey left right passes ending
      /\ (passes <= Z.to_nat (right - left + 1))%nat
      /\ searchLoop ts behavior timeKey left right = ending.
Proof.
  induction budget as [|budget IH]; intros left right Hbudget;
    rewrite searchLoop_step.
  - exists 0%nat, (Exited left right).
    assert (right < left) by lia.
    repeat split; [constructor; lia | lia |].
    destruct (Z.leb_spec left right); [lia | reflexivity].
  - destruct (Z.leb_spec left right) as [Hle|Hgt].
    + destruct (loopBody ts behavior timeKey left right) as [result|l' r'] eqn:Hbody.
      * exists 1%nat, (Returned result).
        repeat split; [now apply whileReturn | lia].
      * destruct (loopBody_shrinks _ _ _ _ _ Hle Hbody) as [Hmid Hnext].
        destruct (IH l' r') as (passes & ending & Hruns & Hpasses & Heq); [lia|].
        exists (S passes), ending.
        repeat split; [eapply whileAgain; eauto | lia | exact Heq].
    + exists 0%nat, (Exited left right).
      repeat split; [constructor; lia | lia].
Qed.

(** C10: every pass through the body of the search loop returns or
    narrows the window ([left] becomes [mid + 1], or [right] becomes
    [mid - 1], with [left <= mid <= right]), so [right - left] falls;
    the loop ends within [right - left + 1] passes, and every call of
    [timeToCoordinateRounded] runs to a result, the one the function
    computes. *)
Theorem timeToCoordinateRounded_terminates timeKey left right t :
  (forall l r, l <= r ->
     match loopBody ts behavior timeKey l r with
     | Return _ => True
     | Continue l' r' =>
         let mid := (l + r) / 2 in
         l <= mid <= r
         /\ ((l' = mid + 1 /\ r' = r) \/ (l' = l /\ r' = mid - 1))
         /\ r' - l' < r - l
     end)
  /\ (exists passes ending,
        whileRuns ts behavior timeKey left right passes ending
        /\ (passes <= Z.to_nat (right - left + 1))%nat
        /\ searchLoop ts behavior timeKey left right = ending)
  /\ (exists result,
        roundedRuns ts behavior t result
        /\ timeToCoordinateRounded ts behavior t = result).
Proof.
  split; [|split].
  - intros l r Hle.
    destruct (loopBody ts behavior timeKey l r) as [|l' r'] eqn:Hbody; [exact I|].
    destruct (loopBody_shrinks _ _ _ _ _ Hle Hbody) as [Hmid Hnext].
    cbv zeta in *. repeat split; try tauto. lia.
  - eapply whileRuns_bounded. reflexivity.
  - unfold timeToCoordinateRounded.
    destruct (timeToCoordinate ts behavior t) as [found|] eqn:Hexact.
    + exists (Some found). split; [now constructor | reflexivity].
    + destruct (visibleStrictRange ts) as [visibleRange|] eqn:Hrange.
      * destruct (whileRuns_bounded
                    (key behavior (convertHorzItemToInternal behavior t)) _
                    (range_left visibleRange) (range_right visibleRange)
                    (Nat.le_refl _))
          as (passes & ending & Hruns & _ & Heq).
        cbv zeta. rewrite Heq.
        destruct ending as [result|l r]; eexists; split; try reflexivity.
        -- eapply roundedReturned; eauto.
        -- eapply roundedExited; eauto.
      * exists None. split; [now constructor | reflexivity].
Qed.

(** C8: the two queries are absent exactly when the scale is empty;
    otherwise they are what [indexToCoordinate] and [coordinateToIndex]
    give. *)
Theorem logical_queries_absent_iff_empty (logical : Z) (x : Coordinate) :
  (logicalToCoordinate ts logical = None <-> isEmpty ts = true)
  /\ (coordinateToLogical ts x = None <-> isEmpty ts = true)
  /\ (isEmpty ts = false ->
      logicalToCoordinate ts logical = Some (coordinate logical)
      /\ coordinateToLogical ts x = Some (coordinateToIndex ts x)).
Proof.
  unfold logicalToCoordinate, coordinateToLogical.
  destruct (isEmpty ts); repeat split; intros; congruence.
Qed.

(** *** The code after the loop *)

(** When the loop has run out, [left] lies above [right]; on equal
    distances the comparison [leftDiff <= rightDiff] keeps [left]. *)
Lemma afterLoop_tie_keeps_left timeKey left right leftPoint rightPoint :
  point left = Some leftPoint ->
  point right = Some rightPoint ->
  Z.abs (key behavior (time leftPoint) - timeKey)
  = Z.abs (key behavior (time rightPoint) - timeKey) ->
  afterLoop ts behavior timeKey left right = Some (coordinate left).
Proof.
  intros Hl Hr Htie. unfold afterLoop. rewrite Hl, Hr. cbv zeta.
  rewrite Htie, Z.leb_refl. reflexivity.
Qed.

(** The loop never ends with its bounds further apart than crossed by
    one, when it started with them in order. *)
Lemma whileRuns_exit_crossed timeKey left right passes ending :
  whileRuns ts behavior timeKey left right passes ending ->
  left <= right + 1 ->
  forall l r, ending = Exited l r -> l = r + 1.
Proof.
  induction 1 as [left right Hgt|left right result Hle Hbody
                 |left right l' r' passes ending Hle Hbody Hruns IH];
    intros Hstart l r Hend.
  - injection Hend as <- <-. lia.
  - discriminate.
  - destruct (loopBody_shrinks _ _ _ _ _ Hle Hbody) as [Hmid Hnext].
    cbv zeta in *. apply IH; [lia | assumption].
Qed.

(** So whenever the loop runs out on two present points at equal
    distance, the method gives [left], the upper of the two bounds. *)
Lemma loop_exit_tie_gives_upper timeKey left right passes l r leftPoint rightPoint :
  left <= right + 1 ->
  whileRuns ts behavior timeKey left right passes (Exited l r) ->
  point l = Some leftPoint ->
  point r = Some rightPoint ->
  Z.abs (key behavior (time leftPoint) - timeKey)
  = Z.abs (key behavior (time rightPoint) - timeKey) ->
  l = r + 1 /\ afterLoop ts behavior timeKey l r = Some (coordinate l).
Proof.
  intros Hstart Hruns Hl Hr Htie. split.
  - eapply whileRuns_exit_crossed; eauto.
  - eapply afterLoop_tie_keeps_left; eauto.
Qed.

(** *** When the result is present *)

Lemma loopBody_present_mid timeKey left right currentPoint :
  point ((left + right) / 2) = Some currentPoint ->
  loopBody ts behavior timeKey left right <> Return None.
Proof.
  intros Hmid. unfold loopBody. cbv zeta. rewrite Hmid.
  repeat match goal with
         | |- context [match ?x with _ => _ end] => destruct x
         end; discriminate.
Qed.

Lemma whileRuns_without_gaps timeKey first last left right passes ending :
  whileRuns ts behavior timeKey left right passes ending ->
  (forall i, first <= i <= last -> is_Some (point i)) ->
  first <= last -> first <= left -> right <= last -> left <= right + 1 ->
  match ending with
  | Returned result => is_Some result
  | Exited l r => is_Some (point l) \/ is_Some (point r)
  end.
Proof.
  intros Hruns Hfull Horder.
  induction Hruns as [left right Hgt|left right result Hle Hbody
                     |left right l' r' passes ending Hle Hbody Hruns IH];
    intros Hfirst Hlast Hclose.
  - destruct (Z.le_gt_cases left last); [left | right]; apply Hfull; lia.
  - assert (first <= (left + right) / 2 <= last) as Hmid
        by (Z.div_mod_to_equations; lia).
    destruct (Hfull _ Hmid) as [currentPoint Hpoint].
    pose proof (loopBody_present_mid timeKey left right currentPoint Hpoint).
    destruct result; [eauto | congruence].
  - destruct (loopBody_shrinks _ _ _ _ _ Hle Hbody) as [Hmid Hnext].
    cbv zeta in *. apply IH; lia.
Qed.

(** X9: over a strict range in order in which every index has a
    point, the rounded lookup is never absent. *)
Lemma rounded_present_without_gaps t visibleRange :
  visibleStrictRange ts = Some visibleRange ->
  range_left visibleRange <= range_right visibleRange ->
  (forall i, range_left visibleRange <= i <= range_right visibleRange ->
             is_Some (point i)) ->
  is_Some (timeToCoordinateRounded ts behavior t).
Proof.
  intros Hrange Horder Hfull. unfold timeToCoordinateRounded.
  destruct (timeToCoordinate ts behavior t); [eauto|].
  rewrite Hrange. cbv zeta.
  destruct (whileRuns_bounded
              (key behavior (convertHorzItemToInternal behavior t)) _
              (range_left visibleRange) (range_right visibleRange)
              (Nat.le_refl _))
    as (passes & ending & Hruns & _ & ->).
  pose proof (whileRuns_without_gaps _ _ _ _ _ _ _ Hruns Hfull Horder
                ltac:(lia) ltac:(lia) ltac:(lia)) as Hend.
  destruct ending as [result|l r]; [exact Hend|].
  unfold afterLoop. cbv zeta.
  destruct (point l) as [leftPoint|], (point r) as [rightPoint|]; cbn; eauto.
  destruct Hend as [[p Hp]|[p Hp]]; discriminate.
Qed.

(** C1: points at indices 0, 1, 2 with keys 1, 5, 9 and a time of key
    7 that has no exact match: the rounded lookup gives the coordinate
    of index 2. *)
Theorem rounded_between_5_and_9 t p0 p1 p2 :
  timeToIndex ts (convertHorzItemToInternal behavior t) false = None ->
  visibleStrictRange ts = Some (mkRangeImpl 0 2) ->
  point 0 = Some p0 -> point 1 = Some p1 -> point 2 = Some p2 ->
  key behavior (time p0) = 1 ->
  key behavior (time p1) = 5 ->
  key behavior (time p2) = 9 ->
  key behavior (convertHorzItemToInternal behavior t) = 7 ->
  timeToCoordinateRounded ts behavior t = Some (coordinate 2).
Proof.
  intros Hexact Hrange H0 H1 H2 K0 K1 K2 Kt.
  unfold timeToCoordinateRounded, timeToCoordinate.
  rewrite Hexact, Hrange. cbv zeta. rewrite Kt. cbn [range_left range_right].
  (* first pass: window [0, 2], mid = 1, key 5 below 7 *)
  rewrite searchLoop_step. change (0 <=? 2) with true. cbv iota.
  unfold loopBody at 1. change ((0 + 2) / 2) with 1. cbv zeta.
  rewrite H1, K1. change (5 =? 7) with false. change (5 <? 7) with true.
  change (0 =? 2 - 1) with false. cbv iota. change (1 + 1) with 2.
  (* second pass: window [2, 2], mid = 2, key 9 above 7 *)
  rewrite searchLoop_step. change (2 <=? 2) with true. cbv iota.
  unfold loopBody at 1. change ((2 + 2) / 2) with 2. cbv zeta.
  rewrite H2, K2. change (9 =? 7) with false. change (9 <? 7) with false.
  change (2 =? 2 - 1) with false. cbv iota. change (2 - 1) with 1.
  (* the loop ends with left = 2, right = 1 *)
  rewrite searchLoop_step. change (2 <=? 1) with false. cbv iota.
  unfold afterLoop. rewrite H2, H1. cbv zeta. rewrite K2, K1.
  reflexivity.
Qed.

End FacadeProperties.

(** ** Exact lookup over a table of points *)

Section PointTableProperties.

Context {HorzScaleItem InternalHorzScaleItem Coordinate : Type}.
Variable behavior : IHorzScaleBehavior HorzScaleItem InternalHorzScaleItem.
Variable points : gmap Z (TimeScalePoint HorzScaleItem InternalHorzScaleItem).

Local Abbreviation keyOf := (fun p => key behavior (time p)).

Lemma exactIndex_Some timePoint i :
  exactIndex behavior points timePoint = Some i ->
  exists p, points !! i = Some p /\ keyOf p = key behavior timePoint.
Proof.
  unfold exactIndex. intros Hfound.
  apply fmap_Some in Hfound as ([j p] & Hhead & ->).
  apply head_Some_elem_of, list_elem_of_filter in Hhead as [Hkey Hin].
  apply elem_of_map_to_list in Hin. eauto.
Qed.

Lemma exactIndex_None timePoint :
  exactIndex behavior points timePoint = None <->
  forall i p, points !! i = Some p -> keyOf p <> key behavior timePoint.
Proof.
  unfold exactIndex. rewrite fmap_None, head_None. split.
  - intros Hnil i p Hp Hkey.
    eapply (filter_nil_not_elem_of _ _ (i, p)) in Hnil; [|exact Hkey].
    apply Hnil, elem_of_map_to_list, Hp.
  - intros Hnone.
    destruct (filter _ (map_to_list points)) as [|[i p] rest] eqn:Hfilter;
      [reflexivity|].
    assert ((i, p) ∈ filter
              (fun entry => keyOf entry.2 = key behavior timePoint)
              (map_to_list points)) as Hin
        by (rewrite Hfilter; left).
    apply list_elem_of_filter in Hin as [Hkey Hin].
    apply elem_of_map_to_list in Hin. destruct (Hnone i p Hin Hkey).
Qed.

Lemma exactIndex_present timePoint i p :
  keysIncreasing behavior points ->
  points !! i = Some p ->
  keyOf p = key behavior timePoint ->
  exactIndex behavior points timePoint = Some i.
Proof.
  intros Hincreasing Hp Hkey.
  destruct (exactIndex behavior points timePoint) as [j|] eqn:Hexact.
  - apply exactIndex_Some in Hexact as (q & Hq & Hkeyq).
    f_equal.
    destruct (Z.lt_trichotomy j i) as [Hlt|[Heq|Hlt]]; [|exact Heq|].
    + pose proof (Hincreasing j q Hq i p Hp Hlt). simpl in *. lia.
    + pose proof (Hincreasing i p Hp j q Hq Hlt). simpl in *. lia.
  - destruct (proj1 (exactIndex_None timePoint) Hexact i p Hp Hkey).
Qed.

(** C5: over a table whose keys increase with the index,
    [timeToCoordinate] is absent exactly when no present point has the
    key of the converted time; a point at index [i] with that key
    gives [indexToCoordinate(i)]; and whatever it gives comes from
    such a point. *)
Theorem timeToCoordinate_exact_match_only
    (visible : option RangeImpl)
    (toCoordinate : Z -> Coordinate) (toIndex : Coordinate -> Z)
    (t : HorzScaleItem) :
  keysIncreasing behavior points ->
  let scale := tableScale behavior points visible toCoordinate toIndex in
  let timeKey := key behavior (convertHorzItemToInternal behavior t) in
  (timeToCoordinate scale behavior t = None <->
   forall i p, points !! i = Some p -> keyOf p <> timeKey)
  /\ (forall i p, points !! i = Some p -> keyOf p = timeKey ->
      timeToCoordinate scale behavior t = Some (toCoordinate i))
  /\ (forall found, timeToCoordinate scale behavior t = Some found ->
      exists i p, points !! i = Some p /\ keyOf p = timeKey
                  /\ found = toCoordinate i).
Proof.
  intros Hincreasing scale timeKey.
  unfold timeToCoordinate. cbn [scale tableScale timeToIndex indexToCoordinate].
  repeat split.
  - intros Habsent.
    apply exactIndex_None.
    destruct (exactIndex behavior points _); [discriminate | reflexivity].
  - intros Hnone. apply exactIndex_None in Hnone. now rewrite Hnone.
  - intros i p Hp Hkey.
    now rewrite (exactIndex_present _ i p Hincreasing Hp Hkey).
  - intros found Hfound.
    destruct (exactIndex behavior points _) as [i|] eqn:Hexact; [|discriminate].
    injection Hfound as <-.
    apply exactIndex_Some in Hexact as (p & Hp & Hkey). eauto.
Qed.

End PointTableProperties.

(** ** Commands *)

Section CommandProperties.

Context {HorzScaleItem InternalHorzScaleItem Coordinate : Type}.
Variable ts : TimeScale HorzScaleItem InternalHorzScaleItem Coordinate.

Local Abbreviation cmd := (command HorzScaleItem).

(** C6: with [from] after [to] the assertion throws before any call is
    made, so [setTargetLogicalRange] is not invoked and the model stays
    as it was; with [from <= to] the one call made is
    [setTargetLogicalRange(range)]. *)
Theorem setVisibleLogicalRange_asserts_order
    (range : Range Z) {Model : Type}
    (setTargetLogicalRange : Range Z -> Model -> Model) (model : Model) :
  (to range < from range ->
   (setVisibleLogicalRange range : cmd unit)
   = ([], Threw "The from index cannot be after the to index.")
   /\ modelAfter setTargetLogicalRange model
        (calls (setVisibleLogicalRange range : cmd unit)) = model)
  /\ (from range <= to range ->
      (setVisibleLogicalRange range : cmd unit)
      = ([ModelSetTargetLogicalRange range], Done tt)
      /\ modelAfter setTargetLogicalRange model
           (calls (setVisibleLogicalRange range : cmd unit))
         = setTargetLogicalRange range model).
Proof.
  unfold setVisibleLogicalRange, assert.
  split; intros Horder.
  - apply Z.leb_gt in Horder. rewrite Horder. split; reflexivity.
  - apply Z.leb_le in Horder. rewrite Horder. split; reflexivity.
Qed.

Lemma getVisibleRange_run :
  getVisibleRange ts = ([TimeScaleVisibleTimeRange], Done (timeRangePayload ts)).
Proof.
  unfold getVisibleRange, timeRangePayload, perform, bind, ret.
  destruct (visibleTimeRange ts); reflexivity.
Qed.

Lemma getVisibleLogicalRange_run :
  getVisibleLogicalRange ts
  = ([TimeScaleVisibleLogicalRange] : list (call HorzScaleItem),
     Done (logicalRangePayload ts)).
Proof.
  unfold getVisibleLogicalRange, logicalRangePayload, perform, bind, ret.
  destruct (visibleLogicalRange ts); reflexivity.
Qed.

(** C9: each of the two range handlers reads the range and fires its
    delegate only when [hasListeners()] holds; with no listener
    registered it makes no call at all, so no payload is built and
    nothing is fired. *)
Theorem range_handlers_need_listeners (timeRangeChanged logicalRangeChanged : Delegate) :
  (hasListeners timeRangeChanged = false ->
   _onVisibleBarsChanged ts timeRangeChanged = ([], Done tt))
  /\ (hasListeners timeRangeChanged = true ->
      _onVisibleBarsChanged ts timeRangeChanged
      = (TimeScaleVisibleTimeRange
           :: map (fun listener => ListenerTimeRange listener (timeRangePayload ts))
                  (listeners timeRangeChanged),
         Done tt))
  /\ (hasListeners logicalRangeChanged = false ->
      _onVisibleLogicalRangeChanged ts logicalRangeChanged = ([], Done tt))
  /\ (hasListeners logicalRangeChanged = true ->
      _onVisibleLogicalRangeChanged ts logicalRangeChanged
      = (TimeScaleVisibleLogicalRange
           :: map (fun listener => ListenerLogicalRange listener (logicalRangePayload ts))
                  (listeners logicalRangeChanged),
         Done tt))
  /\ (forall d : Delegate, listeners d = [] <-> hasListeners d = false).
Proof.
  unfold _onVisibleBarsChanged, _onVisibleLogicalRangeChanged.
  repeat split.
  - intros ->. reflexivity.
  - intros ->. unfold bind, fire. rewrite getVisibleRange_run. reflexivity.
  - intros ->. reflexivity.
  - intros ->. unfold bind, fire. rewrite getVisibleLogicalRange_run. reflexivity.
  - intros Hnone. unfold hasListeners. rewrite Hnone. reflexivity.
  - unfold hasListeners. destruct (listeners d); [reflexivity | discriminate].
Qed.

End CommandProperties.

(** ** Worked inputs *)

Lemma rounded_between_5_and_9_witness :
  timeToCoordinateRounded scale_1_5_9 numericBehavior 7 = Some 2.
Proof.
  apply (rounded_between_5_and_9 scale_1_5_9 numericBehavior 7
           (pointAt 1) (pointAt 5) (pointAt 9)); reflexivity.
Defined.

(** C2: on the scale with keys 1, 5, 9 and the key 7, the loop ends with
    [left = 2] and [right = 1]; both points are present and at distance
    2; the code after the loop gives index 2, the upper of the two. *)
Theorem crossed_bounds_tie_gives_upper :
  searchLoop scale_1_5_9 numericBehavior 7 0 2 = Exited 2 1
  /\ indexToTimeScalePoint scale_1_5_9 2 = Some (pointAt 9)
  /\ indexToTimeScalePoint scale_1_5_9 1 = Some (pointAt 5)
  /\ Z.abs (9 - 7) = Z.abs (5 - 7)
  /\ afterLoop scale_1_5_9 numericBehavior 7 2 1 = Some 2
  /\ Z.max 2 1 = 2.
Proof. repeat split; vm_compute; reflexivity. Qed.

(** The same two neighbours, keys 5 and 9, when they are the whole
    window: the tie inside the loop gives the lower index. *)
Lemma window_of_two_tie_gives_lower :
  timeToCoordinateRounded scale_5_9 numericBehavior 7 = Some 0.
Proof. vm_compute. reflexivity. Qed.




(** C4: the strict range [0, 5] has a point at both ends, and yet the
    rounded lookup of key 7 is absent: the window narrows to the gap at
    index 3, where neither probe finds a point. *)
Theorem rounded_absent_despite_data :
  visibleStrictRange scale_gap_at_3 = Some (mkRangeImpl 0 5)
  /\ strictRangeInvariant scale_gap_at_3
  /\ searchLoop scale_gap_at_3 numericBehavior 7 0 5 = Returned None
  /\ timeToCoordinateRounded scale_gap_at_3 numericBehavior 7 = None.
Proof.
  split; [reflexivity|]. split.
  - unfold strictRangeInvariant. cbn [visibleStrictRange scale_gap_at_3 numericScale tableScale range_left range_right].
    repeat split; [lia | eexists; vm_compute; reflexivity ..].
  - split; vm_compute; reflexivity.
Qed.

Lemma keysIncreasing_1_5_9 :
  keysIncreasing numericBehavior (tableOf [(0, 1); (1, 5); (2, 9)]).
Proof. apply (bool_decide_unpack _). vm_compute. exact I. Defined.

Lemma timeToCoordinate_exact_match_only_witness :
  let scale := scale_1_5_9 in
  (timeToCoordinate scale numericBehavior 5 = None <->
   forall i p, tableOf [(0, 1); (1, 5); (2, 9)] !! i = Some p -> time p <> 5)
  /\ (forall i p, tableOf [(0, 1); (1, 5); (2, 9)] !! i = Some p -> time p = 5 ->
      timeToCoordinate scale numericBehavior 5 = Some i)
  /\ (forall found, timeToCoordinate scale numericBehavior 5 = Some found ->
      exists i p, tableOf [(0, 1); (1, 5); (2, 9)] !! i = Some p /\ time p = 5
                  /\ found = i).
Proof.
  apply (timeToCoordinate_exact_match_only numericBehavior
           (tableOf [(0, 1); (1, 5); (2, 9)])
           (Some (mkRangeImpl 0 2)) (fun i => i) (fun x => x) 5).
  exact keysIncreasing_1_5_9.
Defined.

Lemma absent_midpoint_probes_witness :
  let mid := (0 + 2) / 2 in
  (exists i, mid <= i <= 2 /\ is_Some (indexToTimeScalePoint scale_gap_at_1 i)
     /\ (forall j, mid <= j < i -> indexToTimeScalePoint scale_gap_at_1 j = None)
     /\ loopBody scale_gap_at_1 numericBehavior 1 0 2 = Return (Some i))
  \/ ((forall j, mid <= j <= 2 -> indexToTimeScalePoint scale_gap_at_1 j = None)
      /\ exists i, 0 <= i <= mid - 1 /\ is_Some (indexToTimeScalePoint scale_gap_at_1 i)
           /\ (forall j, i < j <= mid - 1 -> indexToTimeScalePoint scale_gap_at_1 j = None)
           /\ loopBody scale_gap_at_1 numericBehavior 1 0 2 = Return (Some i))
  \/ ((forall j, mid <= j <= 2 -> indexToTimeScalePoint scale_gap_at_1 j = None)
      /\ (forall j, 0 <= j <= mid - 1 -> indexToTimeScalePoint scale_gap_at_1 j = None)
      /\ loopBody scale_gap_at_1 numericBehavior 1 0 2 = Return None).
Proof.
  apply (absent_midpoint_probes scale_gap_at_1 numericBehavior 1 0 2).
  reflexivity.
Defined.

Lemma setVisibleLogicalRange_asserts_order_witness :
  (setVisibleLogicalRange (mkRange 10 3) : command unit unit)
  = ([], Threw "The from index cannot be after the to index.")
  /\ (setVisibleLogicalRange (mkRange 3 10) : command unit unit)
     = ([ModelSetTargetLogicalRange (mkRange 3 10)], Done tt).
Proof.
  split.
  - apply (setVisibleLogicalRange_asserts_order
             (HorzScaleItem := unit) (mkRange 10 3) (fun _ (m : unit) => m) tt).
    simpl. lia.
  - apply (setVisibleLogicalRange_asserts_order
             (HorzScaleItem := unit) (mkRange 3 10) (fun _ (m : unit) => m) tt).
    simpl. lia.
Defined.


(** ** More on the search: what it returns *)

Section SearchProperties.

Context {HorzScaleItem InternalHorzScaleItem Coordinate : Type}.
Variable ts : TimeScale HorzScaleItem InternalHorzScaleItem Coordinate.
Variable behavior : IHorzScaleBehavior HorzScaleItem InternalHorzScaleItem.

Local Abbreviation point := (indexToTimeScalePoint ts).
Local Abbreviation coordinate := (indexToCoordinate ts).
Local Abbreviation keyOf := (fun p => key behavior (time p)).

(** Split the goal's or a hypothesis's [match] on what it inspects. *)
Ltac split_body H :=
  repeat match type of H with
         | context [match ?x with _ => _ end] => destruct x eqn:?
         end.

(** A pass that goes round again has looked at a present midpoint. *)
Lemma loopBody_continue_mid timeKey left right l' r' :
  loopBody ts behavior timeKey left right = Continue l' r' ->
  is_Some (point ((left + right) / 2)).
Proof.
  unfold loopBody. cbv zeta. intros Hbody.
  destruct (point ((left + right) / 2)); [eauto|].
  split_body Hbody; discriminate.
Qed.

(** A pass that returns a coordinate returns that of a present index of
    its window. *)
Lemma loopBody_return_present timeKey left right found :
  left <= right ->
  loopBody ts behavior timeKey left right = Return (Some found) ->
  exists i, left <= i <= right /\ is_Some (point i) /\ found = coordinate i.
Proof.
  intros Hle. unfold loopBody. cbv zeta.
  assert (left <= (left + right) / 2 <= right) as Hmid
      by (Z.div_mod_to_equations; lia).
  set (mid := (left + right) / 2) in *.
  destruct (point mid) as [currentPoint|] eqn:Hpoint.
  - intros Hbody. split_body Hbody; try discriminate; injection Hbody as <-;
      first [ exists mid; split; [lia|]; split; [eauto | reflexivity]
            | exists right; split; [lia|]; split; [eauto | reflexivity]
            | exists left; split; [lia|]; split; [eauto | reflexivity] ].
  - pose proof (scanForward_spec ts mid right) as Hup.
    pose proof (scanBackward_spec ts (mid - 1) left) as Hdown.
    destruct (scanForward ts mid right) as [up|].
    + intros [= <-]. destruct Hup as (i & Hi & Hsome & _ & ->).
      exists i. repeat split; try lia; auto.
    + destruct (scanBackward ts (mid - 1) left) as [down|]; [|discriminate].
      intros [= <-]. destruct Hdown as (i & Hi & Hsome & _ & ->).
      exists i. repeat split; try lia; auto.
Qed.

(** The code after the loop returns the coordinate of one of the two
    bounds, and only of one that has a point. *)
Lemma afterLoop_present timeKey left right found :
  afterLoop ts behavior timeKey left right = Some found ->
  exists i, (i = left \/ i = right) /\ is_Some (point i) /\ found = coordinate i.
Proof.
  unfold afterLoop. cbv zeta.
  destruct (point left) as [leftPoint|] eqn:Hl,
           (point right) as [rightPoint|] eqn:Hr; intros [= <-].
  - destruct (_ <=? _); eauto 6.
  - eauto 6.
  - eauto 6.
Qed.

(** Where a run of the loop that started inside [first, last] can end. *)
Lemma whileRuns_within timeKey first last left right passes ending :
  whileRuns ts behavior timeKey left right passes ending ->
  first <= left -> right <= last ->
  match ending with
  | Returned (Some found) =>
      exists i, first <= i <= last /\ is_Some (point i) /\ found = coordinate i
  | Returned None => True
  | Exited l r => first <= l /\ r <= last
  end.
Proof.
  induction 1 as [left right Hgt|left right result Hle Hbody
                 |left right l' r' passes ending Hle Hbody Hruns IH];
    intros Hfirst Hlast.
  - lia.
  - destruct result as [found|]; [|exact I].
    destruct (loopBody_return_present _ _ _ _ Hle Hbody) as (i & Hi & Hrest).
    exists i. split; [lia | exact Hrest].
  - destruct (loopBody_shrinks _ _ _ _ _ _ _ Hle Hbody) as [Hmid Hnext].
    cbv zeta in *. apply IH; lia.
Qed.

(** When the loop runs out after at least one pass, the midpoint of the
    last pass is one of the two final bounds, and it has a point. *)
Lemma whileRuns_exit_examined timeKey left right passes l r :
  whileRuns ts behavior timeKey left right passes (Exited l r) ->
  left <= right ->
  is_Some (point l) \/ is_Some (point r).
Proof.
  remember (Exited l r) as ending eqn:Hending.
  induction 1 as [left right Hgt|left right result Hle Hbody
                 |left right l' r' passes ending Hle Hbody Hruns IH];
    intros Horder.
  - lia.
  - discriminate.
  - destruct (Z.le_gt_cases l' r') as [Hin|Hout]; [now apply IH|].
    pose proof (loopBody_continue_mid _ _ _ _ _ Hbody) as Hpoint.
    destruct (loopBody_shrinks _ _ _ _ _ _ _ Hle Hbody) as [Hmid Hnext].
    cbv zeta in *.
    inversion Hruns as [? ? _ Hl Hr Hn He| |]; subst; try lia; try discriminate.
    injection He as <- <-.
    destruct Hnext as [[-> ->]|[-> ->]].
    + right. replace right with ((left + right) / 2) by lia. exact Hpoint.
    + left. replace left with ((left + right) / 2) at 1 by lia. exact Hpoint.
Qed.

(** The search as the function computes it has a run. *)
Lemma searchLoop_runs timeKey left right :
  exists passes,
    whileRuns ts behavior timeKey left right passes
              (searchLoop ts behavior timeKey left right).
Proof.
  destruct (whileRuns_bounded ts behavior timeKey _ left right (Nat.le_refl _))
    as (passes & ending & Hruns & _ & ->).
  eauto.
Qed.

(** X1: when the exact lookup misses and the strict range is in order,
    a coordinate given by the rounded lookup is that of an index that
    has a point, and that index is in the strict range or next to one
    of its ends. *)
Theorem rounded_search_gives_present_index t visibleRange found :
  timeToCoordinate ts behavior t = None ->
  visibleStrictRange ts = Some visibleRange ->
  range_left visibleRange <= range_right visibleRange ->
  timeToCoordinateRounded ts behavior t = Some found ->
  exists i,
    range_left visibleRange - 1 <= i <= range_right visibleRange + 1
    /\ is_Some (point i) /\ found = coordinate i.
Proof.
  intros Hexact Hrange Horder. unfold timeToCoordinateRounded.
  rewrite Hexact, Hrange. cbv zeta.
  set (timeKey := key behavior (convertHorzItemToInternal behavior t)).
  destruct (searchLoop_runs timeKey (range_left visibleRange)
                            (range_right visibleRange)) as [passes Hruns].
  pose proof (whileRuns_within _ (range_left visibleRange)
                (range_right visibleRange) _ _ _ _ Hruns
                ltac:(lia) ltac:(lia)) as Hwithin.
  pose proof (whileRuns_exit_crossed _ _ _ _ _ _ _ Hruns ltac:(lia)) as Hcrossed.
  destruct (searchLoop ts behavior timeKey _ _) as [result|l r].
  - intros ->. destruct Hwithin as (i & Hi & Hrest).
    exists i. split; [lia | exact Hrest].
  - intros Hafter. specialize (Hcrossed l r eq_refl).
    destruct (afterLoop_present _ _ _ _ Hafter) as (i & Hi & Hrest).
    exists i. split; [lia | exact Hrest].
Qed.

(** X2: when the bounds start in order and the loop runs out, the
    bounds have crossed by exactly one and one of the two has a point,
    so the code after the loop gives a coordinate: its both-null return
    is never taken. *)
Theorem afterLoop_after_ordered_start timeKey left right l r :
  left <= right ->
  searchLoop ts behavior timeKey left right = Exited l r ->
  l = r + 1
  /\ (is_Some (point l) \/ is_Some (point r))
  /\ is_Some (afterLoop ts behavior timeKey l r).
Proof.
  intros Horder Hexit.
  destruct (searchLoop_runs timeKey left right) as [passes Hruns].
  rewrite Hexit in Hruns.
  pose proof (whileRuns_exit_examined _ _ _ _ _ _ Hruns Horder) as Hpoint.
  split; [eapply whileRuns_exit_crossed; eauto; lia|].
  split; [exact Hpoint|].
  unfold afterLoop. cbv zeta.
  destruct (point l), (point r); cbn; eauto.
  destruct Hpoint as [[p Hp]|[p Hp]]; discriminate.
Qed.

(** X3: if the pixel transform maps the coordinate of every present
    index back to that index, and the exact lookup only gives present
    indices, then every coordinate the rounded lookup gives maps back,
    through [coordinateToTime], to the original time of a present
    point. *)
Theorem rounded_maps_back_to_a_time t found :
  (forall i, is_Some (point i) -> coordinateToIndex ts (coordinate i) = i) ->
  (forall i, timeToIndex ts (convertHorzItemToInternal behavior t) false = Some i ->
             is_Some (point i)) ->
  timeToCoordinateRounded ts behavior t = Some found ->
  exists i p,
    point i = Some p /\ found = coordinate i
    /\ coordinateToTime ts found = Some (originalTime p).
Proof.
  intros Hback Hlookup Hrounded.
  assert (exists i, is_Some (point i) /\ found = coordinate i) as (i & [p Hp] & ->).
  { revert Hrounded. unfold timeToCoordinateRounded, timeToCoordinate. cbv zeta.
    destruct (timeToIndex ts _ false) as [exact|] eqn:Hexact.
    - intros [= <-]. eauto.
    - destruct (visibleStrictRange ts) as [visibleRange|]; [|discriminate].
      set (timeKey := key behavior (convertHorzItemToInternal behavior t)).
      destruct (searchLoop_runs timeKey (range_left visibleRange)
                                (range_right visibleRange)) as [passes Hruns].
      pose proof (whileRuns_within _ (range_left visibleRange)
                    (range_right visibleRange) _ _ _ _ Hruns
                    ltac:(lia) ltac:(lia)) as Hwithin.
      destruct (searchLoop ts behavior timeKey _ _) as [result|l r].
      + intros ->. destruct Hwithin as (i & _ & Hrest). eauto.
      + intros Hafter.
        destruct (afterLoop_present _ _ _ _ Hafter) as (i & _ & Hrest). eauto. }
  exists i, p. repeat split; [exact Hp|].
  unfold coordinateToTime. cbv zeta.
  rewrite (Hback i) by eauto. rewrite Hp. reflexivity.
Qed.

(** *** A strict range without gaps whose keys increase *)

Section Bracketing.

Variables (timeKey first last : Z).

Hypothesis Horder : first <= last.
Hypothesis Hfull : forall i, first <= i <= last -> is_Some (point i).
Hypothesis Hincreasing :
  forall i j p q, first <= i -> i < j -> j <= last ->
                  point i = Some p -> point j = Some q -> keyOf p < keyOf q.
Hypothesis Hbefore : point (first - 1) = None.
Hypothesis Hafter : point (last + 1) = None.

Local Abbreviation outside := (outside ts behavior timeKey first last).
Local Abbreviation brackets := (brackets ts behavior timeKey first last).

Lemma loopBody_brackets left right :
  left <= right -> outside left right ->
  match loopBody ts behavior timeKey left right with
  | Return result => exists i, result = Some (coordinate i) /\ brackets i
  | Continue l' r' => outside l' r'
  end.
Proof.
  intros Hle (Hfirst & Hlast & _ & Hlow & Hhigh).
  assert (left <= (left + right) / 2 <= right) as Hmid
      by (Z.div_mod_to_equations; lia).
  unfold loopBody. cbv zeta.
  set (mid := (left + right) / 2) in *.
  destruct (Hfull mid ltac:(lia)) as [currentPoint Hpoint]. rewrite Hpoint.
  assert (forall j q, first <= j <= mid -> point j = Some q ->
                      keyOf q <= keyOf currentPoint) as Hupto.
  { intros j q Hj Hq. destruct (Z.eq_dec j mid) as [->|Hne].
    - rewrite Hpoint in Hq. injection Hq as <-. lia.
    - pose proof (Hincreasing j mid q currentPoint ltac:(lia) ltac:(lia)
                    ltac:(lia) Hq Hpoint). simpl in *. lia. }
  assert (forall j q, mid <= j <= last -> point j = Some q ->
                      keyOf currentPoint <= keyOf q) as Hfrom.
  { intros j q Hj Hq. destruct (Z.eq_dec j mid) as [->|Hne].
    - rewrite Hpoint in Hq. injection Hq as <-. lia.
    - pose proof (Hincreasing mid j currentPoint q ltac:(lia) ltac:(lia)
                    ltac:(lia) Hpoint Hq). simpl in *. lia. }
  simpl in Hupto, Hfrom.
  destruct (Z.eqb_spec (key behavior (time currentPoint)) timeKey) as [Heq|Hne].
  { exists mid. split; [reflexivity|]. exists currentPoint.
    split; [lia|]. split; [exact Hpoint|]. left. split; [simpl; lia|].
    intros j q Hj Hq.
    pose proof (Hincreasing mid j currentPoint q ltac:(lia) ltac:(lia)
                    ltac:(lia) Hpoint Hq). simpl in *. lia. }
  destruct (Z.ltb_spec (key behavior (time currentPoint)) timeKey) as [Hlt|Hge].
  - destruct (Z.eqb_spec left (right - 1)) as [Htwo|Hmore].
    + assert (mid = left) as Hmidleft
          by (unfold mid; Z.div_mod_to_equations; lia).
      destruct (Hfull right ltac:(lia)) as [nextPoint Hnext]. rewrite Hnext.
      pose proof (Hincreasing mid right currentPoint nextPoint ltac:(lia)
                    ltac:(lia) ltac:(lia) Hpoint Hnext) as Hstep.
      simpl in Hstep.
      destruct (Z.leb_spec (Z.abs (key behavior (time currentPoint) - timeKey))
                           (Z.abs (key behavior (time nextPoint) - timeKey)))
        as [Hnear|Hfar].
      * exists mid. split; [reflexivity|]. exists currentPoint.
        split; [lia|]. split; [exact Hpoint|]. left. split; [simpl; lia|].
        intros j q Hj Hq. destruct (Z.eq_dec j right) as [->|Hjr].
        -- rewrite Hnext in Hq. injection Hq as <-. simpl. lia.
        -- apply (Hhigh j q); [lia | exact Hq].
      * exists right. split; [reflexivity|]. exists nextPoint.
        split; [lia|]. split; [exact Hnext|].
        destruct (Z.le_gt_cases (key behavior (time nextPoint)) timeKey).
        -- left. split; [simpl; lia|]. intros j q Hj Hq.
           apply (Hhigh j q); [lia | exact Hq].
        -- right. split; [simpl; lia|]. intros j q Hj Hq.
           pose proof (Hupto j q ltac:(lia) Hq). simpl in *. lia.
    + repeat split; try lia.
      * intros j q Hj Hq. destruct (Z.lt_ge_cases j left).
        -- apply (Hlow j q); [lia | exact Hq].
        -- pose proof (Hupto j q ltac:(lia) Hq). simpl in *. lia.
      * exact Hhigh.
  - destruct (Z.eqb_spec left (right - 1)) as [Htwo|Hmore].
    + assert (mid = left) as Hmidleft
          by (unfold mid; Z.div_mod_to_equations; lia).
      assert (point left = Some currentPoint) as Hprev
          by (rewrite <- Hmidleft; exact Hpoint).
      rewrite Hprev, Z.leb_refl.
      exists left. split; [reflexivity|]. exists currentPoint.
      split; [lia|]. split; [exact Hprev|].
      right. split; [simpl; lia|]. intros j q Hj Hq.
      apply (Hlow j q); [lia | exact Hq].
    + repeat split; try lia.
      * exact Hlow.
      * intros j q Hj Hq. destruct (Z.lt_ge_cases right j).
        -- apply (Hhigh j q); [lia | exact Hq].
        -- pose proof (Hfrom j q ltac:(lia) Hq). simpl in *. lia.
Qed.

Lemma afterLoop_brackets left right :
  right < left -> outside left right ->
  exists i, afterLoop ts behavior timeKey left right = Some (coordinate i)
            /\ brackets i.
Proof.
  intros Hgt (Hfirst & Hlast & Hclose & Hlow & Hhigh).
  assert (left = right + 1) as -> by lia.
  unfold afterLoop. cbv zeta.
  destruct (Z.eq_dec right (first - 1)) as [Hr|Hr];
    [|destruct (Z.eq_dec right last) as [Hl|Hl]].
  - (* below every key: the left bound is the first index *)
    assert (point right = None) as Hnone by (rewrite Hr; exact Hbefore).
    rewrite Hnone.
    destruct (Hfull (right + 1) ltac:(lia)) as [leftPoint Hpoint]. rewrite Hpoint.
    exists (right + 1). split; [reflexivity|]. exists leftPoint.
    split; [lia|]. split; [exact Hpoint|]. right.
    split; [apply Z.lt_le_incl, (Hhigh (right + 1) leftPoint); [lia | exact Hpoint]|].
    intros j q Hj Hq. lia.
  - (* above every key: the right bound is the last index *)
    assert (point (right + 1) = None) as Hnone by (rewrite Hl; exact Hafter).
    rewrite Hnone.
    destruct (Hfull right ltac:(lia)) as [rightPoint Hpoint]. rewrite Hpoint.
    exists right. split; [reflexivity|]. exists rightPoint.
    split; [lia|]. split; [exact Hpoint|]. left.
    split; [apply Z.lt_le_incl, (Hlow right rightPoint); [lia | exact Hpoint]|].
    intros j q Hj Hq. lia.
  - destruct (Hfull (right + 1) ltac:(lia)) as [leftPoint Hleft].
    destruct (Hfull right ltac:(lia)) as [rightPoint Hright].
    rewrite Hleft, Hright.
    pose proof (Hhigh (right + 1) leftPoint ltac:(lia) Hleft) as Habove.
    pose proof (Hlow right rightPoint ltac:(lia) Hright) as Hbelow.
    destruct (_ <=? _).
    + exists (right + 1). split; [reflexivity|]. exists leftPoint.
      split; [lia|]. split; [exact Hleft|]. right. split; [lia|].
      intros j q Hj Hq. apply (Hlow j q); [lia | exact Hq].
    + exists right. split; [reflexivity|]. exists rightPoint.
      split; [lia|]. split; [exact Hright|]. left. split; [lia|].
      intros j q Hj Hq. apply (Hhigh j q); [lia | exact Hq].
Qed.

Lemma whileRuns_brackets left right passes ending :
  whileRuns ts behavior timeKey left right passes ending ->
  outside left right ->
  exists i, brackets i
    /\ match ending with
       | Returned result => result = Some (coordinate i)
       | Exited l r => afterLoop ts behavior timeKey l r = Some (coordinate i)
       end.
Proof.
  induction 1 as [left right Hgt|left right result Hle Hbody
                 |left right l' r' passes ending Hle Hbody Hruns IH];
    intros Hout.
  - destruct (afterLoop_brackets left right Hgt Hout) as (i & Hi & Hb). eauto.
  - pose proof (loopBody_brackets left right Hle Hout) as Hpass.
    rewrite Hbody in Hpass. destruct Hpass as (i & Hi & Hb). eauto.
  - pose proof (loopBody_brackets left right Hle Hout) as Hpass.
    rewrite Hbody in Hpass. auto.
Qed.

Lemma searchLoop_brackets :
  exists i, brackets i
    /\ match searchLoop ts behavior timeKey first last with
       | Returned result => result = Some (coordinate i)
       | Exited l r => afterLoop ts behavior timeKey l r = Some (coordinate i)
       end.
Proof.
  destruct (searchLoop_runs timeKey first last) as [passes Hruns].
  apply (whileRuns_brackets _ _ _ _ Hruns).
  repeat split; try lia; intros j q Hj; lia.
Qed.

End Bracketing.

(** The rounded lookup over such a range, after the exact lookup has
    missed. *)
Lemma rounded_brackets t visibleRange :
  timeToCoordinate ts behavior t = None ->
  visibleStrictRange ts = Some visibleRange ->
  let timeKey := key behavior (convertHorzItemToInternal behavior t) in
  let first := range_left visibleRange in
  let last := range_right visibleRange in
  first <= last ->
  (forall i, first <= i <= last -> is_Some (point i)) ->
  (forall i j p q, first <= i -> i < j -> j <= last ->
                   point i = Some p -> point j = Some q -> keyOf p < keyOf q) ->
  point (first - 1) = None ->
  point (last + 1) = None ->
  exists i,
    timeToCoordinateRounded ts behavior t = Some (coordinate i)
    /\ brackets ts behavior timeKey first last i.
Proof.
  intros Hexact Hrange timeKey first last Horder Hfull Hinc Hbefore Hafter.
  unfold timeToCoordinateRounded. rewrite Hexact, Hrange. cbv zeta.
  fold timeKey first last.
  destruct (searchLoop_brackets timeKey first last Horder Hfull Hinc Hbefore Hafter)
    as (i & Hi & Hresult).
  exists i. split; [|exact Hi].
  destruct (searchLoop ts behavior timeKey first last); exact Hresult.
Qed.

(** X4: over a strict range in order, without a gap, with keys that
    increase with the index and no point just outside either end, a
    time that the exact lookup misses is rounded to an index of the
    range that holds the last key not above its key, or the first key
    not below it. *)
Theorem rounded_gives_a_neighbour_of_the_key t visibleRange :
  timeToCoordinate ts behavior t = None ->
  visibleStrictRange ts = Some visibleRange ->
  let timeKey := key behavior (convertHorzItemToInternal behavior t) in
  let first := range_left visibleRange in
  let last := range_right visibleRange in
  first <= last ->
  (forall i, first <= i <= last -> is_Some (point i)) ->
  (forall i j p q, first <= i -> i < j -> j <= last ->
                   point i = Some p -> point j = Some q -> keyOf p < keyOf q) ->
  point (first - 1) = None ->
  point (last + 1) = None ->
  exists i p,
    first <= i <= last /\ point i = Some p
    /\ timeToCoordinateRounded ts behavior t = Some (coordinate i)
    /\ ((keyOf p <= timeKey
         /\ forall j q, i < j <= last -> point j = Some q -> timeKey < keyOf q)
        \/ (timeKey <= keyOf p
            /\ forall j q, first <= j < i -> point j = Some q -> keyOf q < timeKey)).
Proof.
  intros Hexact Hrange timeKey first last Horder Hfull Hinc Hbefore Hafter.
  destruct (rounded_brackets t visibleRange Hexact Hrange Horder Hfull Hinc
              Hbefore Hafter) as (i & Hrounded & p & Hi & Hp & Hside).
  exists i, p. split; [exact Hi|]. split; [exact Hp|].
  split; [exact Hrounded | exact Hside].
Qed.

(** X5: over such a range, a time whose key lies below every key of the
    range is rounded to the first index of the range. *)
Theorem rounded_below_every_key_gives_first t visibleRange :
  timeToCoordinate ts behavior t = None ->
  visibleStrictRange ts = Some visibleRange ->
  let timeKey := key behavior (convertHorzItemToInternal behavior t) in
  let first := range_left visibleRange in
  let last := range_right visibleRange in
  first <= last ->
  (forall i, first <= i <= last -> is_Some (point i)) ->
  (forall i j p q, first <= i -> i < j -> j <= last ->
                   point i = Some p -> point j = Some q -> keyOf p < keyOf q) ->
  point (first - 1) = None ->
  point (last + 1) = None ->
  (forall i p, first <= i <= last -> point i = Some p -> timeKey < keyOf p) ->
  timeToCoordinateRounded ts behavior t = Some (coordinate first).
Proof.
  intros Hexact Hrange timeKey first last Horder Hfull Hinc Hbefore Hafter Hbelow.
  destruct (rounded_brackets t visibleRange Hexact Hrange Horder Hfull Hinc
              Hbefore Hafter) as (i & -> & p & Hi & Hp & Hside).
  fold first last timeKey in Hi, Hp, Hside.
  pose proof (Hbelow i p Hi Hp) as Habove. simpl in Habove.
  destruct Hside as [[Hle _]|[_ Hlower]]; [simpl in Hle; lia|].
  destruct (Z.eq_dec i first) as [->|Hne]; [reflexivity|].
  destruct (Hfull first ltac:(lia)) as [q Hq].
  pose proof (Hlower first q ltac:(lia) Hq) as Hlow.
  pose proof (Hbelow first q ltac:(lia) Hq) as Hhigh.
  simpl in *. lia.
Qed.

(** X6: over such a range, a time whose key lies above every key of the
    range is rounded to the last index of the range. *)
Theorem rounded_above_every_key_gives_last t visibleRange :
  timeToCoordinate ts behavior t = None ->
  visibleStrictRange ts = Some visibleRange ->
  let timeKey := key behavior (convertHorzItemToInternal behavior t) in
  let first := range_left visibleRange in
  let last := range_right visibleRange in
  first <= last ->
  (forall i, first <= i <= last -> is_Some (point i)) ->
  (forall i j p q, first <= i -> i < j -> j <= last ->
                   point i = Some p -> point j = Some q -> keyOf p < keyOf q) ->
  point (first - 1) = None ->
  point (last + 1) = None ->
  (forall i p, first <= i <= last -> point i = Some p -> keyOf p < timeKey) ->
  timeToCoordinateRounded ts behavior t = Some (coordinate last).
Proof.
  intros Hexact Hrange timeKey first last Horder Hfull Hinc Hbefore Hafter Habove.
  destruct (rounded_brackets t visibleRange Hexact Hrange Horder Hfull Hinc
              Hbefore Hafter) as (i & -> & p & Hi & Hp & Hside).
  fold first last timeKey in Hi, Hp, Hside.
  pose proof (Habove i p Hi Hp) as Hbelow. simpl in Hbelow.
  destruct Hside as [[_ Hupper]|[Hge _]]; [|simpl in Hge; lia].
  destruct (Z.eq_dec i last) as [->|Hne]; [reflexivity|].
  destruct (Hfull last ltac:(lia)) as [q Hq].
  pose proof (Hupper last q ltac:(lia) Hq) as Hhigh.
  pose proof (Habove last q ltac:(lia) Hq) as Hlow.
  simpl in *. lia.
Qed.

(** X10: a pass through the body of the loop returns absent exactly
    when no index of its window has a point. *)
Theorem pass_absent_iff_window_empty timeKey left right :
  left <= right ->
  loopBody ts behavior timeKey left right = Return None
  <-> forall j, left <= j <= right -> point j = None.
Proof.
  intros Hle.
  assert (left <= (left + right) / 2 <= right) as Hmid
      by (Z.div_mod_to_equations; lia).
  pose proof (scanForward_spec ts ((left + right) / 2) right) as Hup.
  pose proof (scanBackward_spec ts ((left + right) / 2 - 1) left) as Hdown.
  split.
  - intros Hbody j Hj.
    destruct (point ((left + right) / 2)) as [currentPoint|] eqn:Hpoint.
    + destruct (loopBody_present_mid ts behavior timeKey left right
                  currentPoint Hpoint Hbody).
    + revert Hbody. unfold loopBody. cbv zeta. rewrite Hpoint.
      destruct (scanForward ts _ right); [discriminate|].
      destruct (scanBackward ts _ left); [discriminate|].
      intros _. destruct (Z.lt_ge_cases j ((left + right) / 2)).
      * apply Hdown. lia.
      * apply Hup. lia.
  - intros Hempty. unfold loopBody. cbv zeta.
    rewrite (Hempty _ Hmid).
    destruct (scanForward ts _ right).
    + destruct Hup as (i & Hi & [p Hp] & _). rewrite Hempty in Hp by lia.
      discriminate.
    + destruct (scanBackward ts _ left); [|reflexivity].
      destruct Hdown as (i & Hi & [p Hp] & _). rewrite Hempty in Hp by lia.
      discriminate.
Qed.

(** *** How many passes *)

(** Going round again at least halves the window. *)
Lemma loopBody_halves timeKey left right l' r' :
  left <= right ->
  loopBody ts behavior timeKey left right = Continue l' r' ->
  2 * (r' - l' + 1) <= right - left + 1.
Proof.
  intros Hle Hbody.
  destruct (loopBody_shrinks _ _ _ _ _ _ _ Hle Hbody) as [_ Hnext].
  cbv zeta in Hnext.
  destruct Hnext as [[-> ->]|[-> ->]]; Z.div_mod_to_equations; lia.
Qed.

Lemma whileRuns_passes timeKey left right passes ending :
  whileRuns ts behavior timeKey left right passes ending ->
  Z.of_nat passes
  <= if left <=? right then Z.log2 (right - left + 1) + 1 else 0.
Proof.
  induction 1 as [left right Hgt|left right result Hle Hbody
                 |left right l' r' passes ending Hle Hbody Hruns IH].
  - destruct (Z.leb_spec left right); lia.
  - destruct (Z.leb_spec left right); [|lia].
    pose proof (Z.log2_nonneg (right - left + 1)). lia.
  - pose proof (loopBody_halves _ _ _ _ _ Hle Hbody) as Hhalf.
    pose proof (Z.log2_nonneg (right - left + 1)) as Hlog.
    destruct (Z.leb_spec left right); [|lia].
    destruct (Z.leb_spec l' r') as [Hin|Hout]; [|lia].
    assert (Z.log2 (r' - l' + 1) + 1 <= Z.log2 (right - left + 1)).
    { rewrite Z.add_1_r, <- Z.log2_double by lia.
      apply Z.log2_le_mono. lia. }
    lia.
Qed.

(** X7: the search loop ends within [log2 (right - left + 1) + 1]
    passes through its body. *)
Theorem searchLoop_passes_logarithmic timeKey left right :
  exists passes,
    whileRuns ts behavior timeKey left right passes
              (searchLoop ts behavior timeKey left right)
    /\ Z.of_nat passes <= Z.log2 (right - left + 1) + 1.
Proof.
  destruct (searchLoop_runs timeKey left right) as [passes Hruns].
  exists passes. split; [exact Hruns|].
  pose proof (whileRuns_passes _ _ _ _ _ Hruns) as Hbound.
  pose proof (Z.log2_nonneg (right - left + 1)).
  destruct (left <=? right); lia.
Qed.

(** X8: in a window of two indices whose lower point has a key above
    the target, the midpoint is the lower index, the "previous" point
    compared with it is that same point, and the pass returns the lower
    index whatever the other points are. *)
Theorem window_of_two_above_gives_left timeKey left right currentPoint :
  left = right - 1 ->
  point left = Some currentPoint ->
  timeKey < keyOf currentPoint ->
  loopBody ts behavior timeKey left right = Return (Some (coordinate left)).
Proof.
  intros Htwo Hpoint Habove. simpl in Habove.
  assert ((left + right) / 2 = left) as Hmid
      by (Z.div_mod_to_equations; lia).
  unfold loopBody. cbv zeta. rewrite Hmid, Hpoint.
  destruct (Z.eqb_spec (key behavior (time currentPoint)) timeKey); [lia|].
  destruct (Z.ltb_spec (key behavior (time currentPoint)) timeKey); [lia|].
  destruct (Z.eqb_spec left (right - 1)); [|lia].
  rewrite Z.leb_refl. reflexivity.
Qed.

End SearchProperties.


(** ** Worked inputs for the search *)

Lemma scale_1_5_9_full i :
  0 <= i <= 2 -> is_Some (indexToTimeScalePoint scale_1_5_9 i).
Proof.
  intros Hi. assert (i = 0 \/ i = 1 \/ i = 2) as [-> | [-> | ->]] by lia;
    eexists; reflexivity.
Qed.

Lemma scale_1_5_9_increasing i j p q :
  0 <= i -> i < j -> j <= 2 ->
  indexToTimeScalePoint scale_1_5_9 i = Some p ->
  indexToTimeScalePoint scale_1_5_9 j = Some q ->
  key numericBehavior (time p) < key numericBehavior (time q).
Proof.
  intros Hi Hij Hj.
  assert ((i = 0 /\ j = 1) \/ (i = 0 /\ j = 2) \/ (i = 1 /\ j = 2))
    as [[-> ->] | [[-> ->] | [-> ->]]] by lia;
    intros [= <-] [= <-]; reflexivity.
Qed.

Lemma rounded_search_gives_present_index_witness :
  exists i, 0 - 1 <= i <= 2 + 1
            /\ is_Some (indexToTimeScalePoint scale_1_5_9 i) /\ 2 = i.
Proof.
  apply (rounded_search_gives_present_index scale_1_5_9 numericBehavior 7
           (mkRangeImpl 0 2) 2); [reflexivity | reflexivity | simpl; lia | reflexivity].
Defined.

Lemma afterLoop_after_ordered_start_witness :
  2 = 1 + 1
  /\ (is_Some (indexToTimeScalePoint scale_1_5_9 2)
      \/ is_Some (indexToTimeScalePoint scale_1_5_9 1))
  /\ is_Some (afterLoop scale_1_5_9 numericBehavior 7 2 1).
Proof.
  apply (afterLoop_after_ordered_start scale_1_5_9 numericBehavior 7 0 2 2 1);
    [lia | reflexivity].
Defined.

Lemma rounded_maps_back_to_a_time_witness :
  exists i p,
    indexToTimeScalePoint scale_1_5_9 i = Some p /\ 2 = i
    /\ coordinateToTime scale_1_5_9 2 = Some (originalTime p).
Proof.
  apply (rounded_maps_back_to_a_time scale_1_5_9 numericBehavior 7 2).
  - intros i _. reflexivity.
  - intros i Hfound. discriminate Hfound.
  - reflexivity.
Defined.

Lemma rounded_gives_a_neighbour_of_the_key_witness :
  exists i p,
    0 <= i <= 2 /\ indexToTimeScalePoint scale_1_5_9 i = Some p
    /\ timeToCoordinateRounded scale_1_5_9 numericBehavior 7 = Some i
    /\ ((time p <= 7
         /\ forall j q, i < j <= 2 ->
                        indexToTimeScalePoint scale_1_5_9 j = Some q -> 7 < time q)
        \/ (7 <= time p
            /\ forall j q, 0 <= j < i ->
                           indexToTimeScalePoint scale_1_5_9 j = Some q -> time q < 7)).
Proof.
  apply (rounded_gives_a_neighbour_of_the_key scale_1_5_9 numericBehavior 7
           (mkRangeImpl 0 2)).
  - reflexivity.
  - reflexivity.
  - simpl. lia.
  - exact scale_1_5_9_full.
  - exact scale_1_5_9_increasing.
  - reflexivity.
  - reflexivity.
Defined.

Lemma rounded_below_every_key_gives_first_witness :
  timeToCoordinateRounded scale_1_5_9 numericBehavior 0 = Some 0.
Proof.
  apply (rounded_below_every_key_gives_first scale_1_5_9 numericBehavior 0
           (mkRangeImpl 0 2)).
  - reflexivity.
  - reflexivity.
  - simpl. lia.
  - exact scale_1_5_9_full.
  - exact scale_1_5_9_increasing.
  - reflexivity.
  - reflexivity.
  - intros i p Hi. simpl in Hi.
    assert (i = 0 \/ i = 1 \/ i = 2) as [-> | [-> | ->]] by lia;
      intros [= <-]; reflexivity.
Defined.

Lemma rounded_above_every_key_gives_last_witness :
  timeToCoordinateRounded scale_1_5_9 numericBehavior 20 = Some 2.
Proof.
  apply (rounded_above_every_key_gives_last scale_1_5_9 numericBehavior 20
           (mkRangeImpl 0 2)).
  - reflexivity.
  - reflexivity.
  - simpl. lia.
  - exact scale_1_5_9_full.
  - exact scale_1_5_9_increasing.
  - reflexivity.
  - reflexivity.
  - intros i p Hi. simpl in Hi.
    assert (i = 0 \/ i = 1 \/ i = 2) as [-> | [-> | ->]] by lia;
      intros [= <-]; reflexivity.
Defined.

Lemma window_of_two_above_gives_left_witness :
  loopBody scale_5_9 numericBehavior 3 0 1 = Return (Some 0).
Proof.
  apply (window_of_two_above_gives_left scale_5_9 numericBehavior 3 0 1 (pointAt 5));
    [reflexivity | reflexivity | simpl; lia].
Defined.

Lemma rounded_present_without_gaps_witness :
  is_Some (timeToCoordinateRounded scale_1_5_9 numericBehavior 7).
Proof.
  apply (rounded_present_without_gaps scale_1_5_9 numericBehavior 7
           (mkRangeImpl 0 2)); [reflexivity | simpl; lia | exact scale_1_5_9_full].
Defined.

Lemma pass_absent_iff_window_empty_witness :
  loopBody scale_gap_at_3 numericBehavior 7 3 3 = Return None
  <-> forall j, 3 <= j <= 3 -> indexToTimeScalePoint scale_gap_at_3 j = None.
Proof.
  apply (pass_absent_iff_window_empty scale_gap_at_3 numericBehavior 7 3 3).
  lia.
Defined.
